(** * pf2: the sampling core (signal scheduler, profile buffer, serializer)

    A shallow embedding of [ext/pf2/src/signal_scheduler.rs] and
    [ext/pf2/src/serialization/serializer.rs].  A Rust panic (an
    [unwrap] on [None], an out-of-range index, [panic!]) is modelled
    as an explicit result, so that it can be told apart from a value
    the code returns. *)

From Stdlib Require Import List String ZArith Lia Bool.
Import ListNotations.
Open Scope Z_scope.

(** Ruby's [VALUE] (a [u64] handle); the core never computes with it. *)
Definition VALUE := Z.

(** ** The serialized document ([serialization::profile]) *)

Module Ser.

(** [FunctionImplementation]: the serializer only builds [Ruby]; the
    other variant is the spec's "native" kind. *)
Inductive FunctionImplementation := Ruby | Native.

Record Function := {
  implementation : FunctionImplementation;
  name : option string;
  filename : option string;
  start_lineno : option Z;
  start_address : option Z
}.

Record Location := {
  function_index : nat;
  lineno : Z;
  address : option Z
}.

Record Sample := {
  stack : list nat;
  ruby_thread_id : option VALUE
}.

Record Profile := {
  start_timestamp_ns : Z;
  duration_ns : Z;
  samples : list Sample;
  locations : list Location;
  functions : list Function
}.

(** [#[derive(PartialEq)]] on [Function] and [Location]. *)
Definition FunctionImplementation_eq_dec :
  forall a b : FunctionImplementation, {a = b} + {a <> b}.
Proof. decide equality. Defined.

Definition option_eq_dec {A} (d : forall a b : A, {a = b} + {a <> b}) :
  forall a b : option A, {a = b} + {a <> b}.
Proof. decide equality. Defined.

Definition Function_eq_dec : forall f g : Function, {f = g} + {f <> g}.
Proof.
  decide equality;
    first [ apply (option_eq_dec Z.eq_dec)
          | apply (option_eq_dec string_dec)
          | apply FunctionImplementation_eq_dec ].
Defined.

Definition Location_eq_dec : forall l m : Location, {l = m} + {l <> m}.
Proof.
  decide equality;
    first [ apply (option_eq_dec Z.eq_dec) | apply Z.eq_dec
          | apply Nat.eq_dec ].
Defined.

End Ser.

(** ** Captured samples and the shared profile ([crate::sample],
    [crate::profile]) *)

(** Modelled from the spec: [crate::sample::Sample], whose source is not
    in the repository snapshot.  Its fields are the ones
    [signal_scheduler.rs] and [serializer.rs] read: a timestamp in
    nanoseconds, the number of captured frames, the frame handles and
    their line numbers (leaf first), and the sampled thread. *)
Record Sample := {
  timestamp : Z;
  line_count : Z;
  frames : list VALUE;
  linenos : list Z;
  ruby_thread : VALUE
}.

(** Modelled from the spec: [crate::profile::Profile], whose source is
    not in the repository snapshot: a start timestamp, the durable
    sample list and the bounded staging buffer
    ([temporary_sample_buffer]). *)
Record Profile := {
  start_timestamp : Z;
  samples : list Sample;
  temporary_sample_buffer : list Sample
}.

(** ** [ProfileSerializer2] *)

(** [Iterator::position]: index of the first element the predicate
    [|x| *x == v] accepts. *)
Fixpoint position {A} (eq_dec : forall a b : A, {a = b} + {a <> b})
    (v : A) (l : list A) : option nat :=
  match l with
  | [] => None
  | x :: l' => if eq_dec x v then Some 0%nat
               else option_map S (position eq_dec v l')
  end.

Record ProfileSerializer2 := { profile : Ser.Profile }.

Definition ProfileSerializer2_new : ProfileSerializer2 :=
  {| profile := {| Ser.start_timestamp_ns := 0; Ser.duration_ns := 0;
                   Ser.samples := []; Ser.locations := [];
                   Ser.functions := [] |} |}.

Section Serializer.

(** [extract_function_from_frame] asks the Ruby VM to describe a frame
    (the spec's "frame description" collaborator); it is a parameter. *)
Variable extract_function_from_frame : VALUE -> Ser.Function.

Definition set_functions (p : Ser.Profile) fs : Ser.Profile :=
  {| Ser.start_timestamp_ns := Ser.start_timestamp_ns p;
     Ser.duration_ns := Ser.duration_ns p; Ser.samples := Ser.samples p;
     Ser.locations := Ser.locations p; Ser.functions := fs |}.

Definition set_locations (p : Ser.Profile) ls : Ser.Profile :=
  {| Ser.start_timestamp_ns := Ser.start_timestamp_ns p;
     Ser.duration_ns := Ser.duration_ns p; Ser.samples := Ser.samples p;
     Ser.locations := ls; Ser.functions := Ser.functions p |}.

Definition set_samples (p : Ser.Profile) ss : Ser.Profile :=
  {| Ser.start_timestamp_ns := Ser.start_timestamp_ns p;
     Ser.duration_ns := Ser.duration_ns p; Ser.samples := ss;
     Ser.locations := Ser.locations p; Ser.functions := Ser.functions p |}.

(** [process_ruby_frame]: returns the updated [self] and the location
    index. *)
Definition process_ruby_frame (self : ProfileSerializer2) (frame : VALUE)
    (lineno : Z) : ProfileSerializer2 * nat :=
  let p := profile self in
  let function := extract_function_from_frame frame in
  let '(p, function_index) :=
    match position Ser.Function_eq_dec function (Ser.functions p) with
    | Some index => (p, index)
    | None =>
        let p := set_functions p (Ser.functions p ++ [function]) in
        (p, (List.length (Ser.functions p) - 1)%nat)
    end in
  let location := {| Ser.function_index := function_index;
                     Ser.lineno := lineno; Ser.address := None |} in
  match position Ser.Location_eq_dec location (Ser.locations p) with
  | Some index => ({| profile := p |}, index)
  | None =>
      let p := set_locations p (Ser.locations p ++ [location]) in
      ({| profile := p |}, (List.length (Ser.locations p) - 1)%nat)
  end.

(** The inner loop [for i in 0..ruby_stack_depth]: [k] iterations are
    left, [i] is the current index; [None] is the panic of an
    out-of-range [sample.frames[i]] or [sample.linenos[i]]. *)
Fixpoint stack_loop (self : ProfileSerializer2) (sample : Sample)
    (i k : nat) (stack : list nat) : option (ProfileSerializer2 * list nat) :=
  match k with
  | O => Some (self, stack)
  | S k' =>
      match nth_error (frames sample) i with
      | None => None
      | Some frame =>
          match nth_error (linenos sample) i with
          | None => None
          | Some lineno =>
              let '(self, location_index) :=
                process_ruby_frame self frame lineno in
              stack_loop self sample (S i) k' (stack ++ [location_index])
          end
      end
  end.

(** The outer loop over [source.samples]. *)
Fixpoint samples_loop (self : ProfileSerializer2) (ss : list Sample)
    : option ProfileSerializer2 :=
  match ss with
  | [] => Some self
  | sample :: ss' =>
      match stack_loop self sample 0 (Z.to_nat (line_count sample)) [] with
      | None => None
      | Some (self, stack) =>
          let p := profile self in
          let p := set_samples p
                     (Ser.samples p ++ [{| Ser.stack := stack;
                         Ser.ruby_thread_id := Some (ruby_thread sample) |}]) in
          samples_loop {| profile := p |} ss'
      end
  end.

(** [serialize]: the updated serializer and the document it returns,
    [serde_json::to_string(&self.profile)], represented by the
    [Ser.Profile] value it renders. *)
Definition serialize (self : ProfileSerializer2) (source : Profile)
    : option (ProfileSerializer2 * Ser.Profile) :=
  match samples_loop self (samples source) with
  | None => None
  | Some self => Some (self, profile self)
  end.

End Serializer.

(** ** Runtime: the lock, the profile buffer and the scheduler *)

(** [std::sync::RwLock]: its state, and the non-blocking [try_write] and
    [try_read] ([true] is [Ok]). *)
Inductive LockState := Unlocked | ReadLocked (readers : nat) | WriteLocked.

Definition try_write (l : LockState) : bool :=
  match l with Unlocked => true | _ => false end.

Definition try_read (l : LockState) : bool :=
  match l with WriteLocked => false | _ => true end.

(** The result of a step: a value, or a panic with its message. *)
Inductive Outcome (A : Type) := Ok (a : A) | Panic (msg : string).
Arguments Ok {A} a.
Arguments Panic {A} msg.

(** Modelled from the spec: [Profile::new()] (the start timestamp is
    taken at creation; both sample sequences start empty). *)
Definition Profile_new (now : Z) : Profile :=
  {| start_timestamp := now; samples := []; temporary_sample_buffer := [] |}.

(** Modelled from the spec: [Profile::flush_temporary_sample_buffer]
    (drain the staging buffer and append its samples, in order, to the
    durable list). *)
Definition flush_temporary_sample_buffer (p : Profile) : Profile :=
  {| start_timestamp := start_timestamp p;
     samples := samples p ++ temporary_sample_buffer p;
     temporary_sample_buffer := [] |}.

(** An [Arc<RwLock<Profile>>] cell. *)
Record Cell := { lock : LockState; data : Profile }.

(** Ruby values returned by [start] and [stop].  [RString p] is
    [rb_str_new_cstr] of the document [ProfileSerializer::serialize]
    renders from the finalized profile [p]. *)
Inductive RValue := Qtrue | Qfalse | RString (p : Profile).

Section Staging.

(** The fixed capacity of the staging buffer. *)
Variable TEMPORARY_SAMPLE_BUFFER_CAPACITY : nat.

(** Modelled from the spec: [temporary_sample_buffer.push] on the
    bounded staging buffer; [None] is its [Err] (buffer full). *)
Definition push (buf : list Sample) (s : Sample) : option (list Sample) :=
  if (List.length buf <? TEMPORARY_SAMPLE_BUFFER_CAPACITY)%nat
  then Some (buf ++ [s]) else None.

(** [signal_handler] on the profile cell its payload points to.
    [sample] is what [Sample::capture(args.context_ruby_thread)] returns
    when the handler gets that far.  The write guard is dropped on
    return, so the lock state is unchanged. *)
Definition signal_handler (c : Cell) (sample : Sample) : Outcome Cell :=
  if try_write (lock c) then
    match push (temporary_sample_buffer (data c)) sample with
    | None =>
        Panic "[pf2 DEBUG] Temporary sample buffer full. Dropping sample."
    | Some buf =>
        Ok {| lock := lock c;
              data := {| start_timestamp := start_timestamp (data c);
                         samples := samples (data c);
                         temporary_sample_buffer := buf |} |}
    end
  else Ok c.

End Staging.

(** The process: the scheduler's [profile] field (an index into the heap
    of profile cells, so that the [Arc] clones held by the flusher
    threads and the timers alias it), the flusher threads (each one
    holding the index of its profile) and the installed timers (profile
    index and target thread). *)
Record World := {
  scheduler_profile : option nat;
  heap : list Cell;
  flushers : list nat;
  timers : list (nat * VALUE)
}.

Definition World_init : World :=
  {| scheduler_profile := None; heap := []; flushers := []; timers := [] |}.

Fixpoint update_nth {A} (n : nat) (x : A) (l : list A) : list A :=
  match l, n with
  | [], _ => []
  | _ :: l', O => x :: l'
  | y :: l', S n' => y :: update_nth n' x l'
  end.

Definition set_heap (w : World) h : World :=
  {| scheduler_profile := scheduler_profile w; heap := h;
     flushers := flushers w; timers := timers w |}.

(** The [HashSet] built from the thread array. *)
Definition target_ruby_threads (ths : list VALUE) : list VALUE :=
  nodup Z.eq_dec ths.

(** Modelled from the spec: [TimerInstaller::install_timer_to_ruby_threads]
    creates one timer per target thread, in turn.  [timer_create] tells
    whether the kernel creates the next timer, given the timers already
    installed (it may refuse one, for instance once the process's limit
    is reached; timers are never deleted).  A failed creation is fatal to
    [start]: the installer returns nothing, so it panics. *)
Fixpoint install_timers
    (timer_create : list (nat * VALUE) -> nat * VALUE -> bool)
    (installed pending : list (nat * VALUE)) : option (list (nat * VALUE)) :=
  match pending with
  | [] => Some installed
  | t :: rest =>
      if timer_create installed t
      then install_timers timer_create (installed ++ [t]) rest
      else None
  end.

Definition timer_create_failed_msg : string := "timer_create failed".

(** [start]: a new profile, a new flusher thread holding it, the
    signal handler (whose [sigaction] is taken to succeed) and the timers
    of [install_timer_to_ruby_threads], one per target thread; then
    [self.profile = Some(profile)]. *)
Definition start (timer_create : list (nat * VALUE) -> nat * VALUE -> bool)
    (w : World) (ruby_threads : list VALUE) (now : Z)
    : Outcome (World * RValue) :=
  let id := List.length (heap w) in
  let heap' := heap w ++ [{| lock := Unlocked; data := Profile_new now |}] in
  let flushers' := flushers w ++ [id] in
  match install_timers timer_create (timers w)
          (map (fun th => (id, th)) (target_ruby_threads ruby_threads)) with
  | None => Panic timer_create_failed_msg
  | Some timers' =>
      Ok ({| scheduler_profile := Some id; heap := heap';
             flushers := flushers'; timers := timers' |}, Qtrue)
  end.

(** One iteration of the flusher thread's [loop] for the profile [id]
    it holds; the loop has no exit. *)
Definition flusher_iteration (w : World) (id : nat) : World :=
  match nth_error (heap w) id with
  | None => w
  | Some c =>
      if try_write (lock c) then
        set_heap w (update_nth id
          {| lock := lock c; data := flush_temporary_sample_buffer (data c) |}
          (heap w))
      else w
  end.

(** A timer [(id, th)] fires and runs [signal_handler] on profile [id]. *)
Definition timer_fires (cap : nat) (w : World) (timer : nat * VALUE)
    (sample : Sample) : Outcome World :=
  match nth_error (heap w) (fst timer) with
  | None => Ok w
  | Some c =>
      match signal_handler cap c sample with
      | Ok c' => Ok (set_heap w (update_nth (fst timer) c' (heap w)))
      | Panic m => Panic m
      end
  end.

(** A flusher thread or a signal handler is inside its write section on
    profile [id]: it holds the write guard. *)
Definition writer_inside (w : World) (id : nat) : World :=
  match nth_error (heap w) id with
  | None => w
  | Some c =>
      set_heap w (update_nth id {| lock := WriteLocked; data := data c |}
                    (heap w))
  end.

(** What the other threads do while [stop] holds no guard: a flusher
    iteration, a timer firing its signal handler, or a writer caught
    inside its write section. *)
Inductive Interleaved :=
| FlusherRuns (id : nat)
| TimerFires (timer : nat * VALUE) (sample : Sample)
| WriterInside (id : nat).

Definition event_profile (e : Interleaved) : nat :=
  match e with
  | FlusherRuns id => id
  | TimerFires timer _ => fst timer
  | WriterInside id => id
  end.

Definition other_step (cap : nat) (w : World) (e : Interleaved)
    : Outcome World :=
  match e with
  | FlusherRuns id => Ok (flusher_iteration w id)
  | TimerFires timer sample => timer_fires cap w timer sample
  | WriterInside id => Ok (writer_inside w id)
  end.

(** The other threads' steps in order; a panic in a signal handler
    aborts the process. *)
Fixpoint run_others (cap : nat) (evs : list Interleaved) (w : World)
    : Outcome World :=
  match evs with
  | [] => Ok w
  | e :: evs =>
      match other_step cap w e with
      | Ok w' => run_others cap evs w'
      | Panic m => Panic m
      end
  end.

Definition last_opt {A} (l : list A) : option A :=
  match rev l with [] => None | x :: _ => Some x end.

Definition unwrap_none_msg : string :=
  "called `Option::unwrap()` on a `None` value".

Definition unwrap_err_msg : string :=
  "called `Result::unwrap()` on an `Err` value".

(** [stop].  Its two lock sections are separate: the write guard taken
    at line 72 is dropped at the end of the [match] (line 80), and
    [try_read] (line 82) sees the profile as the other threads, whose
    steps in that window are [others], have left it.  A [None] heap
    lookup cannot happen for an index [start] allocated; it is mapped to
    a panic. *)
Definition stop (cap : nat) (others : list Interleaved) (w : World)
    : Outcome (World * RValue) :=
  match scheduler_profile w with
  | None => Panic "stop() called before start()"
  | Some id =>
      match nth_error (heap w) id with
      | None => Panic unwrap_none_msg
      | Some c =>
          if try_write (lock c) then
            let w := set_heap w (update_nth id
                       {| lock := lock c;
                          data := flush_temporary_sample_buffer (data c) |}
                       (heap w)) in
            match run_others cap others w with
            | Panic m => Panic m
            | Ok w =>
                match nth_error (heap w) id with
                | None => Panic unwrap_none_msg
                | Some c =>
                    if try_read (lock c) then
                      match last_opt (samples (data c)) with
                      | None => Panic unwrap_none_msg
                      | Some _ => Ok (w, RString (data c))
                      end
                    else Panic unwrap_err_msg
                end
            end
          else Ok (w, Qfalse)
      end
  end.

(** A [timer_create] that never fails, and one that refuses a timer
    once [n] are installed. *)
Definition timer_create_always (_ : list (nat * VALUE)) (_ : nat * VALUE)
    : bool := true.


(** ** Concrete inputs *)

(** A captured sample with one frame. *)
Definition sample_at (ts : Z) (frame : VALUE) (lineno : Z) (th : VALUE)
    : Sample :=
  {| timestamp := ts; line_count := 1; frames := [frame];
     linenos := [lineno]; ruby_thread := th |}.

(** A frame describer that gives every frame its own function. *)
Definition describe_frame (frame : VALUE) : Ser.Function :=
  {| Ser.implementation := Ser.Ruby; Ser.name := Some "m"%string;
     Ser.filename := Some "a.rb"%string; Ser.start_lineno := Some frame;
     Ser.start_address := None |}.

(** A profile started at 100 ns holding one sample taken at 250 ns. *)
Definition one_sample_profile : Profile :=
  {| start_timestamp := 100; samples := [sample_at 250 7 3 42];
     temporary_sample_buffer := [] |}.

(** Two samples of one thread sharing frame 7 at line 3; frame 7 is also
    hit at line 5, and the first sample's stack holds frame 7 twice. *)
Definition repeated_frames_profile : Profile :=
  {| start_timestamp := 0;
     samples := [{| timestamp := 10; line_count := 3; frames := [7; 8; 7];
                    linenos := [3; 5; 3]; ruby_thread := 42 |};
                 {| timestamp := 20; line_count := 2; frames := [7; 7];
                    linenos := [3; 5]; ruby_thread := 42 |}];
     temporary_sample_buffer := [] |}.

(** ** Properties of serialized documents *)

(** [l'] is [l] with entries appended at its end. *)
Definition extends {A} (l l' : list A) : Prop := exists suffix, l' = l ++ suffix.

(** Every index a document holds points into its tables. *)
Definition refs_in_bounds (p : Ser.Profile) : Prop :=
  (forall s, In s (Ser.samples p) ->
     forall i, In i (Ser.stack s) -> (i < List.length (Ser.locations p))%nat) /\
  (forall l, In l (Ser.locations p) ->
     (Ser.function_index l < List.length (Ser.functions p))%nat).

(** The tables hold no duplicates and every index is in bounds. *)
Definition tables_ok (p : Ser.Profile) : Prop :=
  NoDup (Ser.locations p) /\ NoDup (Ser.functions p) /\ refs_in_bounds p.

(** Every location of [p] is referenced by a sample's stack, or by the
    stack [stack] under construction. *)
Definition locations_referenced (p : Ser.Profile) (stack : list nat) : Prop :=
  forall x, (x < List.length (Ser.locations p))%nat ->
    (exists s, In s (Ser.samples p) /\ In x (Ser.stack s)) \/ In x stack.

(** Every function of the table is used by some location. *)
Definition functions_referenced (p : Ser.Profile) : Prop :=
  forall fi, (fi < List.length (Ser.functions p))%nat ->
    exists l, In l (Ser.locations p) /\ Ser.function_index l = fi.

Section Resolution.

Variable ef : VALUE -> Ser.Function.

(** Location [idx] of [p] is the triple (function of [frame], [lineno],
    no address) of a captured frame. *)
Definition resolves (p : Ser.Profile) (frame : VALUE) (lineno : Z)
    (idx : nat) : Prop :=
  exists fi,
    nth_error (Ser.locations p) idx =
      Some {| Ser.function_index := fi; Ser.lineno := lineno;
              Ser.address := None |} /\
    nth_error (Ser.functions p) fi = Some (ef frame).

(** Entry [j] of [stack] resolves frame [j] of [sample]. *)
Definition stack_resolves (p : Ser.Profile) (sample : Sample)
    (stack : list nat) : Prop :=
  forall j idx, nth_error stack j = Some idx ->
    exists frame lineno,
      nth_error (frames sample) j = Some frame /\
      nth_error (linenos sample) j = Some lineno /\
      resolves p frame lineno idx.

End Resolution.

(** The find-or-append step [process_ruby_frame] performs on each of
    its two tables: the index of the first equal entry, or else the entry
    appended at the end and its index. *)
Definition find_or_push {A} (eq_dec : forall a b : A, {a = b} + {a <> b})
    (v : A) (l : list A) : list A * nat :=
  match position eq_dec v l with
  | Some index => (l, index)
  | None => (l ++ [v], (List.length (l ++ [v]) - 1)%nat)
  end.

(** ** Facts about the serializer *)

Section SerializerFacts.

Variable ef : VALUE -> Ser.Function.

Lemma process_ruby_frame_shape : forall self frame lineno,
  Ser.start_timestamp_ns (profile (fst (process_ruby_frame ef self frame lineno)))
    = Ser.start_timestamp_ns (profile self) /\
  Ser.duration_ns (profile (fst (process_ruby_frame ef self frame lineno)))
    = Ser.duration_ns (profile self) /\
  Ser.samples (profile (fst (process_ruby_frame ef self frame lineno)))
    = Ser.samples (profile self).
Proof.
  intros self frame lineno. unfold process_ruby_frame.
  destruct (position Ser.Function_eq_dec _ _);
    destruct (position Ser.Location_eq_dec _ _); cbn; auto.
Qed.

Lemma stack_loop_header : forall sample k i stack self self' stack',
  stack_loop ef self sample i k stack = Some (self', stack') ->
  Ser.start_timestamp_ns (profile self') = Ser.start_timestamp_ns (profile self) /\
  Ser.duration_ns (profile self') = Ser.duration_ns (profile self) /\
  Ser.samples (profile self') = Ser.samples (profile self).
Proof.
  intros sample k. induction k as [|k IH]; intros i stack self self' stack' H;
    cbn in H.
  - inversion H; subst; auto.
  - destruct (nth_error (frames sample) i) as [frame|]; [|discriminate].
    destruct (nth_error (linenos sample) i) as [lineno|]; [|discriminate].
    pose proof (process_ruby_frame_shape self frame lineno) as [E1 [E2 E3]].
    destruct (process_ruby_frame ef self frame lineno) as [s idx] eqn:Hp.
    cbn in E1, E2, E3. apply IH in H as [-> [-> ->]]. auto.
Qed.

Lemma samples_loop_header : forall ss self self',
  samples_loop ef self ss = Some self' ->
  Ser.start_timestamp_ns (profile self') = Ser.start_timestamp_ns (profile self) /\
  Ser.duration_ns (profile self') = Ser.duration_ns (profile self).
Proof.
  induction ss as [|sample ss IH]; intros self self' H; cbn in H.
  - inversion H; subst; auto.
  - destruct (stack_loop ef self sample 0 _ []) as [[s stack]|] eqn:Hs;
      [|discriminate].
    apply stack_loop_header in Hs as [E1 [E2 _]].
    apply IH in H as [-> ->]. cbn. auto.
Qed.

Lemma samples_loop_samples : forall ss self self',
  samples_loop ef self ss = Some self' ->
  exists added, Ser.samples (profile self') = Ser.samples (profile self) ++ added
    /\ List.length added = List.length ss.
Proof.
  induction ss as [|sample ss IH]; intros self self' H; cbn in H.
  - inversion H; subst. exists []. rewrite app_nil_r. auto.
  - destruct (stack_loop ef self sample 0 _ []) as [[s stack]|] eqn:Hs;
      [|discriminate].
    apply stack_loop_header in Hs as [_ [_ E3]].
    apply IH in H as [added [Ha Hl]]. cbn in Ha.
    rewrite E3, <- app_assoc in Ha. cbn in Ha.
    eexists. split; [exact Ha|]. cbn. lia.
Qed.

End SerializerFacts.

(** ** List facts *)

Lemma extends_refl {A} (l : list A) : extends l l.
Proof. exists []. symmetry. apply app_nil_r. Qed.

Lemma extends_app {A} (l suffix : list A) : extends l (l ++ suffix).
Proof. exists suffix. reflexivity. Qed.

Lemma extends_trans {A} (l1 l2 l3 : list A) :
  extends l1 l2 -> extends l2 l3 -> extends l1 l3.
Proof.
  intros [s1 ->] [s2 ->]. exists (s1 ++ s2). symmetry. apply app_assoc.
Qed.

Lemma extends_nth {A} (l l' : list A) i x :
  extends l l' -> nth_error l i = Some x -> nth_error l' i = Some x.
Proof.
  intros [suffix ->] H. rewrite nth_error_app1; [exact H|].
  apply nth_error_Some. congruence.
Qed.

Lemma extends_length {A} (l l' : list A) :
  extends l l' -> (List.length l <= List.length l')%nat.
Proof. intros [suffix ->]. rewrite length_app. lia. Qed.

Lemma extends_In {A} (l l' : list A) x : extends l l' -> In x l -> In x l'.
Proof. intros [suffix ->] H. apply in_or_app. left. exact H. Qed.

Lemma position_some {A} d (v : A) l i :
  position d v l = Some i -> nth_error l i = Some v.
Proof.
  revert i. induction l as [|x l IH]; intros i H; cbn in H; [discriminate|].
  destruct (d x v) as [->|_].
  - inversion H; subst. reflexivity.
  - destruct (position d v l) as [j|] eqn:E; cbn in H; [|discriminate].
    inversion H; subst. cbn. apply IH. reflexivity.
Qed.

Lemma position_none {A} d (v : A) l : position d v l = None -> ~ In v l.
Proof.
  induction l as [|x l IH]; cbn; intros H; [auto|].
  destruct (d x v) as [->|Hne]; [discriminate|].
  destruct (position d v l); cbn in H; [discriminate|].
  intros [E|Hin]; [contradiction|]. apply IH; auto.
Qed.

Lemma NoDup_snoc {A} (l : list A) v : NoDup l -> ~ In v l -> NoDup (l ++ [v]).
Proof.
  intros Hl Hv. apply NoDup_app; [exact Hl| |].
  - constructor; [intros []|constructor].
  - intros a Ha [<-|[]]. contradiction.
Qed.

Lemma nth_error_snoc_cases {A} (l : list A) v j x :
  nth_error (l ++ [v]) j = Some x ->
  nth_error l j = Some x \/ (j = List.length l /\ x = v).
Proof.
  intros H. destruct (Nat.lt_ge_cases j (List.length l)) as [Hj|Hj].
  - left. rewrite nth_error_app1 in H; auto.
  - right. rewrite nth_error_app2 in H by exact Hj.
    destruct (j - List.length l)%nat eqn:E; cbn in H.
    + inversion H; subst. split; [lia|reflexivity].
    + destruct n; discriminate.
Qed.

Lemma nth_error_snoc_last {A} (l : list A) v :
  nth_error (l ++ [v]) (List.length l) = Some v.
Proof. rewrite nth_error_app2 by lia. rewrite Nat.sub_diag. reflexivity. Qed.

Lemma find_or_push_extends {A} d (v : A) l l' i :
  find_or_push d v l = (l', i) -> extends l l'.
Proof.
  unfold find_or_push. destruct (position d v l); intros H; inversion H; subst.
  - apply extends_refl.
  - apply extends_app.
Qed.

Lemma find_or_push_spec {A} d (v : A) l l' i :
  find_or_push d v l = (l', i) -> NoDup l ->
  NoDup l' /\ nth_error l' i = Some v /\
  (forall x, In x l' -> In x l \/ x = v) /\
  (forall j, (j < List.length l')%nat -> (j < List.length l)%nat \/ j = i).
Proof.
  unfold find_or_push. destruct (position d v l) eqn:E; intros H Hnd;
    inversion H; subst.
  - split; [exact Hnd|]. split; [eapply position_some; exact E|].
    split; intros; left; assumption.
  - split; [apply NoDup_snoc; [exact Hnd|eapply position_none; exact E]|].
    rewrite length_app. cbn. replace (List.length l + 1 - 1)%nat
      with (List.length l) by lia.
    split; [apply nth_error_snoc_last|]. split.
    + intros x Hx. apply in_app_or in Hx as [Hx|[<-|[]]]; auto.
    + intros j Hj. lia.
Qed.

(** ** The serializer keeps its tables deduplicated and in bounds *)

Section SerializerInvariants.

Variable ef : VALUE -> Ser.Function.

Lemma process_ruby_frame_eq : forall self frame lineno,
  process_ruby_frame ef self frame lineno =
    let p := profile self in
    let '(fns, fi) := find_or_push Ser.Function_eq_dec (ef frame)
                        (Ser.functions p) in
    let '(locs, li) := find_or_push Ser.Location_eq_dec
        {| Ser.function_index := fi; Ser.lineno := lineno;
           Ser.address := None |} (Ser.locations p) in
    ({| profile := {| Ser.start_timestamp_ns := Ser.start_timestamp_ns p;
                      Ser.duration_ns := Ser.duration_ns p;
                      Ser.samples := Ser.samples p;
                      Ser.locations := locs; Ser.functions := fns |} |}, li).
Proof.
  intros [[st du ss ls fs]] frame lineno.
  unfold process_ruby_frame, find_or_push. cbn.
  destruct (position Ser.Function_eq_dec (ef frame) fs);
    cbn; match goal with
         | |- context [position Ser.Location_eq_dec ?v ?l] =>
             destruct (position Ser.Location_eq_dec v l)
         end; reflexivity.
Qed.

Lemma process_ruby_frame_extends : forall self frame lineno self' idx,
  process_ruby_frame ef self frame lineno = (self', idx) ->
  extends (Ser.functions (profile self)) (Ser.functions (profile self')) /\
  extends (Ser.locations (profile self)) (Ser.locations (profile self')) /\
  Ser.samples (profile self') = Ser.samples (profile self).
Proof.
  intros self frame lineno self' idx H. rewrite process_ruby_frame_eq in H.
  cbn in H.
  destruct (find_or_push _ (ef frame) _) as [fns fi] eqn:Ef.
  destruct (find_or_push _ _ (Ser.locations (profile self))) as [locs li]
    eqn:El.
  inversion H; subst; clear H. cbn.
  split; [eapply find_or_push_extends; exact Ef|].
  split; [eapply find_or_push_extends; exact El|reflexivity].
Qed.

Lemma process_ruby_frame_inv : forall self frame lineno self' idx,
  process_ruby_frame ef self frame lineno = (self', idx) ->
  tables_ok (profile self) ->
  tables_ok (profile self') /\
  resolves ef (profile self') frame lineno idx /\
  (idx < List.length (Ser.locations (profile self')))%nat /\
  (forall x, (x < List.length (Ser.locations (profile self')))%nat ->
     (x < List.length (Ser.locations (profile self)))%nat \/ x = idx).
Proof.
  intros self frame lineno self' idx H [Hl [Hf [Hs Hb]]].
  pose proof (process_ruby_frame_extends _ _ _ _ _ H) as [Xf [Xl Xs]].
  rewrite process_ruby_frame_eq in H. cbn in H.
  destruct (find_or_push _ (ef frame) _) as [fns fi] eqn:Ef.
  destruct (find_or_push _ _ (Ser.locations (profile self))) as [locs li]
    eqn:El.
  inversion H; subst; clear H. cbn in *.
  apply find_or_push_spec in Ef as [Ef1 [Ef2 [Ef3 Ef4]]]; [|exact Hf].
  apply find_or_push_spec in El as [El1 [El2 [El3 El4]]]; [|exact Hl].
  split; [|split; [|split]].
  - split; [exact El1|]. split; [exact Ef1|]. split.
    + intros s Hin i Hi. apply extends_length in Xl. cbn in Xl.
      specialize (Hs s Hin i Hi). cbn. lia.
    + intros l Hin. apply extends_length in Xf. cbn in Xf.
      apply El3 in Hin as [Hin|Heq].
      * specialize (Hb l Hin). cbn. lia.
      * subst l. cbn. apply nth_error_Some. congruence.
  - exists fi. cbn. auto.
  - cbn. apply nth_error_Some. congruence.
  - cbn. exact El4.
Qed.

Lemma resolves_extends : forall p p' frame lineno idx,
  extends (Ser.functions p) (Ser.functions p') ->
  extends (Ser.locations p) (Ser.locations p') ->
  resolves ef p frame lineno idx -> resolves ef p' frame lineno idx.
Proof.
  intros p p' frame lineno idx Xf Xl [fi [H1 H2]].
  exists fi. split; eapply extends_nth; eauto.
Qed.

Lemma stack_resolves_extends : forall p p' sample stack,
  extends (Ser.functions p) (Ser.functions p') ->
  extends (Ser.locations p) (Ser.locations p') ->
  stack_resolves ef p sample stack -> stack_resolves ef p' sample stack.
Proof.
  intros p p' sample stack Xf Xl H j idx Hj.
  destruct (H j idx Hj) as [frame [lineno [H1 [H2 H3]]]].
  exists frame, lineno. split; [exact H1|]. split; [exact H2|].
  eapply resolves_extends; eauto.
Qed.

Lemma resolves_unique : forall p f1 l1 i1 f2 l2 i2,
  NoDup (Ser.locations p) -> NoDup (Ser.functions p) ->
  resolves ef p f1 l1 i1 -> resolves ef p f2 l2 i2 ->
  ef f1 = ef f2 -> l1 = l2 -> i1 = i2.
Proof.
  intros p f1 l1 i1 f2 l2 i2 Hl Hf [fi1 [A1 B1]] [fi2 [A2 B2]] E <-.
  assert (fi1 = fi2) as <-.
  { eapply (proj1 (NoDup_nth_error _)); [exact Hf| |].
    - apply nth_error_Some. congruence.
    - congruence. }
  eapply (proj1 (NoDup_nth_error _)); [exact Hl| |].
  - apply nth_error_Some. congruence.
  - congruence.
Qed.

Lemma stack_loop_extends : forall sample k i stack self self' stack',
  stack_loop ef self sample i k stack = Some (self', stack') ->
  extends (Ser.functions (profile self)) (Ser.functions (profile self')) /\
  extends (Ser.locations (profile self)) (Ser.locations (profile self')) /\
  Ser.samples (profile self') = Ser.samples (profile self).
Proof.
  intros sample k. induction k as [|k IH];
    intros i stack self self' stack' H; cbn in H.
  - inversion H; subst. split; [apply extends_refl|].
    split; [apply extends_refl|reflexivity].
  - destruct (nth_error (frames sample) i) as [frame|]; [|discriminate].
    destruct (nth_error (linenos sample) i) as [lineno|]; [|discriminate].
    destruct (process_ruby_frame ef self frame lineno) as [s idx] eqn:Hp.
    apply process_ruby_frame_extends in Hp as [F1 [F2 F3]].
    apply IH in H as [G1 [G2 G3]].
    split; [eapply extends_trans; eauto|].
    split; [eapply extends_trans; eauto|congruence].
Qed.

Lemma samples_loop_extends : forall ss self self',
  samples_loop ef self ss = Some self' ->
  extends (Ser.samples (profile self)) (Ser.samples (profile self')) /\
  extends (Ser.functions (profile self)) (Ser.functions (profile self')) /\
  extends (Ser.locations (profile self)) (Ser.locations (profile self')).
Proof.
  induction ss as [|sample ss IH]; intros self self' H; cbn in H.
  - inversion H; subst. split; [apply extends_refl|].
    split; apply extends_refl.
  - destruct (stack_loop ef self sample 0 _ []) as [[s stack]|] eqn:Hs;
      [|discriminate].
    apply stack_loop_extends in Hs as [F1 [F2 F3]].
    apply IH in H as [G1 [G2 G3]]. cbn in G1, G2, G3.
    split; [|split; eapply extends_trans; eauto].
    rewrite F3 in G1. eapply extends_trans; [apply extends_app|exact G1].
Qed.

Lemma stack_loop_inv : forall sample k i stack self self' stack',
  stack_loop ef self sample i k stack = Some (self', stack') ->
  tables_ok (profile self) ->
  i = List.length stack ->
  (forall x, In x stack -> (x < List.length (Ser.locations (profile self)))%nat) ->
  stack_resolves ef (profile self) sample stack ->
  tables_ok (profile self') /\
  (forall x, In x stack' ->
     (x < List.length (Ser.locations (profile self')))%nat) /\
  stack_resolves ef (profile self') sample stack' /\
  (locations_referenced (profile self) stack ->
   locations_referenced (profile self') stack').
Proof.
  intros sample k. induction k as [|k IH];
    intros i stack self self' stack' H Hok Hi Hb Hr; cbn in H.
  - inversion H; subst. auto.
  - destruct (nth_error (frames sample) i) as [frame|] eqn:Hfr;
      [|discriminate].
    destruct (nth_error (linenos sample) i) as [lineno|] eqn:Hln;
      [|discriminate].
    destruct (process_ruby_frame ef self frame lineno) as [s idx] eqn:Hp.
    pose proof (process_ruby_frame_extends _ _ _ _ _ Hp) as [F1 [F2 F3]].
    apply process_ruby_frame_inv in Hp as [P1 [P2 [P3 P4]]]; [|exact Hok].
    pose proof (extends_length _ _ F2) as L2.
    apply IH in H as [G1 [G2 [G3 G4]]].
    + split; [exact G1|]. split; [exact G2|]. split; [exact G3|].
      intros Href. apply G4. intros x Hx.
      destruct (P4 x Hx) as [Hx' | ->].
      * destruct (Href x Hx') as [[s0 [Hs0 Hin]]|Hin].
        -- left. exists s0. rewrite F3. auto.
        -- right. apply in_or_app. left. exact Hin.
      * right. apply in_or_app. right. left. reflexivity.
    + exact P1.
    + rewrite length_app. cbn. lia.
    + intros x Hx. apply in_app_or in Hx as [Hx|[<-|[]]]; [|exact P3].
      specialize (Hb x Hx). lia.
    + intros j idx' Hj. apply nth_error_snoc_cases in Hj as [Hj|[-> ->]].
      * eapply stack_resolves_extends; eauto.
      * exists frame, lineno. subst i. auto.
Qed.

Lemma samples_loop_inv : forall ss self self',
  samples_loop ef self ss = Some self' ->
  tables_ok (profile self) ->
  tables_ok (profile self') /\
  (locations_referenced (profile self) [] ->
   locations_referenced (profile self') []) /\
  (forall k s sample,
     nth_error (Ser.samples (profile self'))
       (List.length (Ser.samples (profile self)) + k) = Some s ->
     nth_error ss k = Some sample ->
     stack_resolves ef (profile self') sample (Ser.stack s)).
Proof.
  induction ss as [|sample ss IH]; intros self self' H Hok; cbn in H.
  - inversion H; subst. split; [exact Hok|]. split; [auto|].
    intros k s sample _ Hk. destruct k; discriminate.
  - destruct (stack_loop ef self sample 0 _ []) as [[s1 stack]|] eqn:Hs;
      [|discriminate].
    pose proof (stack_loop_extends _ _ _ _ _ _ _ Hs) as [F1 [F2 F3]].
    apply stack_loop_inv in Hs as [S1 [S2 [S3 S4]]];
      [|exact Hok|reflexivity|intros x []|intros j idx Hj; destruct j; discriminate].
    pose proof (samples_loop_extends _ _ _ H) as [G1 [G2 G3]].
    cbn in G1, G2, G3.
    apply IH in H as [H1 [H2 H3]].
    + split; [exact H1|]. split.
      * intros Href. apply H2. intros x Hx. cbn in Hx.
        destruct (S4 Href x Hx) as [[s0 [Hs0 Hin]]|Hin].
        -- left. exists s0. split; [|exact Hin]. cbn.
           apply in_or_app. left. exact Hs0.
        -- left. exists {| Ser.stack := stack;
                           Ser.ruby_thread_id := Some (ruby_thread sample) |}.
           split; [|exact Hin]. cbn.
           apply in_or_app. right. left. reflexivity.
      * intros [|k] s sample' Hk Hss.
        -- cbn in Hss. inversion Hss; subst sample'.
           rewrite Nat.add_0_r, <- F3 in Hk.
           erewrite extends_nth in Hk;
             [|exact G1|apply nth_error_snoc_last].
           inversion Hk; subst s. cbn.
           eapply stack_resolves_extends; [exact G2|exact G3|exact S3].
        -- cbn in Hss. apply (H3 k); [|exact Hss]. cbn.
           rewrite length_app, F3. cbn.
           replace (List.length (Ser.samples (profile self)) + 1 + k)%nat
             with (List.length (Ser.samples (profile self)) + S k)%nat
             by lia. exact Hk.
    + destruct S1 as [T1 [T2 [T3 T4]]]. split; [exact T1|].
      split; [exact T2|]. split; [|exact T4].
      intros s0 Hs0 i Hi. cbn in Hs0.
      apply in_app_or in Hs0 as [Hs0|[<-|[]]].
      * eapply T3; eauto.
      * apply S2. exact Hi.
Qed.

End SerializerInvariants.

(** ** Facts about the heap of profile cells *)

Lemma nth_error_update_nth_same {A} : forall (l : list A) n x y,
  nth_error l n = Some y -> nth_error (update_nth n x l) n = Some x.
Proof.
  induction l as [|a l IH]; intros [|n] x y H; cbn in *; try discriminate;
    eauto.
Qed.

Lemma nth_error_update_nth_other {A} : forall (l : list A) n m x,
  n <> m -> nth_error (update_nth n x l) m = nth_error l m.
Proof.
  induction l as [|a l IH]; intros [|n] [|m] x H; cbn; try reflexivity;
    [contradiction|].
  apply IH. intros ->. contradiction.
Qed.

Lemma signal_handler_data : forall cap c sample c',
  signal_handler cap c sample = Ok c' ->
  samples (data c') = samples (data c) /\
  start_timestamp (data c') = start_timestamp (data c).
Proof.
  intros cap c sample c' H. unfold signal_handler in H.
  destruct (try_write (lock c)).
  - destruct (push cap _ sample); inversion H; subst. auto.
  - inversion H; subst. auto.
Qed.


(** ** The other threads' steps *)

Lemma other_step_meta : forall cap w e w',
  other_step cap w e = Ok w' ->
  scheduler_profile w' = scheduler_profile w /\
  flushers w' = flushers w /\ timers w' = timers w.
Proof.
  intros cap w [id|timer s|id] w' H; cbn in H.
  - inversion H; subst. unfold flusher_iteration.
    destruct (nth_error (heap w) id); [destruct (try_write _)|]; auto.
  - unfold timer_fires in H.
    destruct (nth_error (heap w) (fst timer)) as [c|];
      [|inversion H; subst; auto].
    destruct (signal_handler cap c s); inversion H; subst; auto.
  - inversion H; subst. unfold writer_inside.
    destruct (nth_error (heap w) id); auto.
Qed.

Lemma run_others_meta : forall cap evs w w',
  run_others cap evs w = Ok w' ->
  scheduler_profile w' = scheduler_profile w /\
  flushers w' = flushers w /\ timers w' = timers w.
Proof.
  induction evs as [|e evs IH]; intros w w' H; cbn in H.
  - inversion H; subst. auto.
  - destruct (other_step cap w e) as [w1|m] eqn:E; [|discriminate].
    apply other_step_meta in E as [E1 [E2 E3]].
    apply IH in H as [H1 [H2 H3]]. rewrite H1, H2, H3. auto.
Qed.



(** What one step of another thread does to the cell [id]. *)
Lemma other_step_cell : forall cap w e w' id c,
  other_step cap w e = Ok w' ->
  nth_error (heap w) id = Some c ->
  exists c', nth_error (heap w') id = Some c' /\
    (c' = c \/
     (e = FlusherRuns id /\
      c' = {| lock := lock c; data := flush_temporary_sample_buffer (data c) |}) \/
     (e = WriterInside id /\ data c' = data c) \/
     (exists th sample, e = TimerFires (id, th) sample /\
                        signal_handler cap c sample = Ok c')).
Proof.
  intros cap w [id'|[id' th] s|id'] w' id c H Hc; cbn in H.
  - inversion H; subst; clear H. unfold flusher_iteration.
    destruct (Nat.eq_dec id' id) as [<-|Hne].
    + rewrite Hc. destruct (try_write (lock c)); cbn.
      * eexists. split; [eapply nth_error_update_nth_same; exact Hc|].
        right. left. auto.
      * exists c. auto.
    + destruct (nth_error (heap w) id') as [c0|];
        [destruct (try_write (lock c0))|]; cbn;
        [rewrite nth_error_update_nth_other by exact Hne| |];
        exists c; auto.
  - unfold timer_fires in H. cbn [fst] in H.
    destruct (Nat.eq_dec id' id) as [<-|Hne].
    + rewrite Hc in H.
      destruct (signal_handler cap c s) as [c'|m] eqn:Hs; [|discriminate].
      inversion H; subst; clear H. cbn.
      exists c'. split; [eapply nth_error_update_nth_same; exact Hc|].
      right. right. right. eauto.
    + destruct (nth_error (heap w) id') as [c0|];
        [|inversion H; subst; exists c; auto].
      destruct (signal_handler cap c0 s); inversion H; subst; clear H.
      cbn. rewrite nth_error_update_nth_other by exact Hne.
      exists c. auto.
  - inversion H; subst; clear H. unfold writer_inside.
    destruct (Nat.eq_dec id' id) as [<-|Hne].
    + rewrite Hc. cbn. eexists.
      split; [eapply nth_error_update_nth_same; exact Hc|].
      right. right. left. auto.
    + destruct (nth_error (heap w) id') as [c0|]; cbn;
        [rewrite nth_error_update_nth_other by exact Hne|];
        exists c; auto.
Qed.

(** A property of the cell [id] that every step of [evs] keeps holds
    after them. *)
Lemma run_others_cell (Q : Cell -> Prop) : forall cap evs id,
  (forall e w1 w2 c1, In e evs -> other_step cap w1 e = Ok w2 ->
     nth_error (heap w1) id = Some c1 -> Q c1 ->
     exists c2, nth_error (heap w2) id = Some c2 /\ Q c2) ->
  forall w w' c,
  run_others cap evs w = Ok w' -> nth_error (heap w) id = Some c -> Q c ->
  exists c', nth_error (heap w') id = Some c' /\ Q c'.
Proof.
  intros cap evs id. induction evs as [|e evs IH]; intros HQ w w' c H Hc Qc;
    cbn in H.
  - inversion H; subst. eauto.
  - destruct (other_step cap w e) as [w1|m] eqn:E; [|discriminate].
    destruct (HQ e w w1 c (or_introl eq_refl) E Hc Qc) as [c1 [Hc1 Qc1]].
    eapply IH; [|exact H|exact Hc1|exact Qc1].
    intros e' w2 w3 c2 Hin. apply HQ. right. exact Hin.
Qed.

Lemma run_others_untouched : forall cap evs id w w' c,
  Forall (fun e => event_profile e <> id) evs ->
  run_others cap evs w = Ok w' -> nth_error (heap w) id = Some c ->
  nth_error (heap w') id = Some c.
Proof.
  intros cap evs id w w' c Hf H Hc.
  destruct (run_others_cell (fun c1 => c1 = c) cap evs id) with w w' c
    as [c' [Hc' ->]]; auto.
  intros e w1 w2 c1 Hin E Hc1 ->.
  destruct (other_step_cell _ _ _ _ id c E Hc1)
    as [c2 [Hc2 [->|[[-> _]|[[-> _]|[th [s [-> _]]]]]]]];
    [eauto| | |];
    rewrite Forall_forall in Hf; apply Hf in Hin; cbn in Hin;
    contradiction.
Qed.

(** ** The timer installer *)






Lemma last_opt_nil {A} (l : list A) x : last_opt l = Some x -> l <> [].
Proof. intros H ->. discriminate. Qed.

(** ** The claims *)

(** C1: when the handler holds the lock and the staging buffer is at its
    capacity, the handler panics (the message says the sample is
    dropped, but nothing is dropped and counted: the process aborts). *)
Theorem signal_handler_full_buffer_panics :
  forall cap (c : Cell) (sample : Sample),
  lock c = Unlocked ->
  List.length (temporary_sample_buffer (data c)) = cap ->
  signal_handler cap c sample =
    Panic "[pf2 DEBUG] Temporary sample buffer full. Dropping sample.".
Proof.
  intros cap c sample Hl Hc. unfold signal_handler, push.
  rewrite Hl, Hc, Nat.ltb_irrefl. reflexivity.
Qed.

Lemma signal_handler_full_buffer_panics_witness :
  signal_handler 1 {| lock := Unlocked;
      data := {| start_timestamp := 0; samples := [];
                 temporary_sample_buffer := [sample_at 10 7 3 42] |} |}
    (sample_at 20 7 3 42) =
  Panic "[pf2 DEBUG] Temporary sample buffer full. Dropping sample.".
Proof. apply signal_handler_full_buffer_panics; reflexivity. Defined.

(** C2: [ProfileSerializer2::serialize] leaves the document's
    [start_timestamp_ns] and [duration_ns] at the zeros [new()] puts
    there, whatever the source profile's start timestamp and samples. *)
Theorem serialize_header_is_zero :
  forall ef (source : Profile) self doc,
  serialize ef ProfileSerializer2_new source = Some (self, doc) ->
  Ser.start_timestamp_ns doc = 0 /\ Ser.duration_ns doc = 0.
Proof.
  intros ef source self doc H. unfold serialize in H.
  destruct (samples_loop ef ProfileSerializer2_new (samples source)) as [s|]
    eqn:E; [|discriminate].
  inversion H; subst. apply samples_loop_header in E. exact E.
Qed.

Lemma serialize_header_is_zero_witness :
  exists self doc,
    serialize describe_frame ProfileSerializer2_new one_sample_profile
      = Some (self, doc) /\
    Ser.start_timestamp_ns doc = 0 /\ Ser.duration_ns doc = 0 /\
    start_timestamp one_sample_profile = 100 /\
    map timestamp (samples one_sample_profile) = [250].
Proof.
  destruct (serialize describe_frame ProfileSerializer2_new one_sample_profile)
    as [[self doc]|] eqn:E.
  - exists self, doc. split; [reflexivity|].
    destruct (serialize_header_is_zero _ _ _ _ E) as [H1 H2].
    repeat split; assumption || reflexivity.
  - vm_compute in E. discriminate.
Defined.






(** C6 (as stated): after [stop] has returned, the flusher thread is still
    registered and its next iteration mutates the profile: here a timer
    (still armed) stages a sample after [stop], and the flusher then
    moves it into the durable sample list. *)
Lemma flusher_runs_after_stop_counterexample :
  exists w1 w2 w3 v w4,
    start timer_create_always World_init [42] 0 = Ok (w1, Qtrue) /\
    timer_fires 8 w1 (0%nat, 42) (sample_at 10 7 3 42) = Ok w2 /\
    stop 8 [] w2 = Ok (w3, v) /\
    flushers w3 = [0%nat] /\
    timer_fires 8 w3 (0%nat, 42) (sample_at 20 7 4 42) = Ok w4 /\
    heap (flusher_iteration w4 0) <> heap w4.
Proof.
  do 5 eexists.
  split; [reflexivity|]. split; [vm_compute; reflexivity|].
  split; [vm_compute; reflexivity|]. split; [vm_compute; reflexivity|].
  split; [vm_compute; reflexivity|].
  vm_compute. intro H. inversion H.
Qed.

(** C6 (amended): [stop] neither signals nor joins the flusher threads
    (nor disarms the timers): whatever the other threads do meanwhile,
    the flusher and timer sets are the same after it returns, and a
    flusher iteration that finds the lock free still flushes the
    profile's staging buffer into its samples. *)
Theorem stop_leaves_flusher_running :
  (forall cap others w w' v, stop cap others w = Ok (w', v) ->
     flushers w' = flushers w /\ timers w' = timers w) /\
  (forall w id c, nth_error (heap w) id = Some c -> lock c = Unlocked ->
     nth_error (heap (flusher_iteration w id)) id =
       Some {| lock := Unlocked;
               data := flush_temporary_sample_buffer (data c) |}).
Proof.
  split.
  - intros cap others w w' v H. unfold stop in H.
    destruct (scheduler_profile w) as [id|]; [|discriminate].
    destruct (nth_error (heap w) id) as [c|]; [|discriminate].
    destruct (try_write (lock c)); [|inversion H; subst; auto].
    destruct (run_others cap others _) as [w1|m] eqn:E; [|discriminate].
    apply run_others_meta in E as [_ [E2 E3]]. cbn in E2, E3.
    destruct (nth_error (heap w1) id) as [c1|]; [|discriminate].
    destruct (try_read (lock c1)); [|discriminate].
    destruct (last_opt _); [|discriminate].
    inversion H; subst. auto.
  - intros w id c H Hl. unfold flusher_iteration. rewrite H, Hl. cbn.
    eapply nth_error_update_nth_same. exact H.
Qed.

Lemma stop_leaves_flusher_running_witness :
  exists w1 w2 w3 v,
    start timer_create_always World_init [42] 0 = Ok (w1, Qtrue) /\
    timer_fires 8 w1 (0%nat, 42) (sample_at 10 7 3 42) = Ok w2 /\
    stop 8 [] w2 = Ok (w3, v) /\
    flushers w3 = flushers w2 /\
    nth_error (heap (flusher_iteration w3 0)) 0 =
      Some {| lock := Unlocked;
              data := flush_temporary_sample_buffer
                        {| start_timestamp := 0;
                           samples := [sample_at 10 7 3 42];
                           temporary_sample_buffer := [] |} |}.
Proof.
  do 4 eexists.
  split; [reflexivity|]. split; [vm_compute; reflexivity|].
  split; [vm_compute; reflexivity|].
  split.
  - eapply (proj1 stop_leaves_flusher_running 8%nat []). vm_compute. reflexivity.
  - refine (proj2 stop_leaves_flusher_running _ 0%nat
              {| lock := Unlocked;
                 data := {| start_timestamp := 0;
                            samples := [sample_at 10 7 3 42];
                            temporary_sample_buffer := [] |} |} _ _);
      vm_compute; reflexivity.
Defined.

(** C8 (as stated): serialization is not a function of the source profile
    alone: the same serializer, given the same profile twice, returns two
    different documents, because [serialize] appends to [self.profile]. *)
Lemma serializer_reuse_counterexample :
  exists s1 d1 s2 d2,
    serialize describe_frame ProfileSerializer2_new one_sample_profile
      = Some (s1, d1) /\
    serialize describe_frame s1 one_sample_profile = Some (s2, d2) /\
    d1 <> d2.
Proof.
  do 4 eexists. split; [vm_compute; reflexivity|].
  split; [vm_compute; reflexivity|].
  intro H. inversion H.
Qed.

(** C8 (amended): [serialize] reads the source (a shared borrow, not
    returned) and its document is the serializer's own [profile]: the
    samples already there followed by one new sample per source sample.
    Fresh serializers thus give equal documents for equal input, while a
    reused one accumulates earlier calls' samples. *)
Theorem serialize_appends_to_own_document :
  forall ef self (source : Profile) self' doc,
  serialize ef self source = Some (self', doc) ->
  doc = profile self' /\
  exists added,
    Ser.samples doc = Ser.samples (profile self) ++ added /\
    List.length added = List.length (samples source).
Proof.
  intros ef self source self' doc H. unfold serialize in H.
  destruct (samples_loop ef self (samples source)) as [s|] eqn:E;
    [|discriminate].
  inversion H; subst. split; [reflexivity|].
  eapply samples_loop_samples. exact E.
Qed.

Lemma serialize_appends_to_own_document_witness :
  exists s1 d1 s2 d2,
    serialize describe_frame ProfileSerializer2_new one_sample_profile
      = Some (s1, d1) /\
    serialize describe_frame s1 one_sample_profile = Some (s2, d2) /\
    d2 = profile s2 /\
    d1 = profile s1 /\
    exists added, Ser.samples d2 = Ser.samples (profile s1) ++ added /\
      List.length added = 1%nat.
Proof.
  do 4 eexists. split; [vm_compute; reflexivity|].
  split; [vm_compute; reflexivity|].
  match goal with
  | |- ?d = profile ?s /\ _ = profile ?s1 /\ _ =>
      destruct (serialize_appends_to_own_document describe_frame s1
                  one_sample_profile s d ltac:(vm_compute; reflexivity))
        as [H1 H2]
  end.
  split; [exact H1|]. split; [reflexivity|].
  destruct H2 as [added [H2 H3]]. exists added. split; [exact H2|exact H3].
Defined.




(** C4: serializing from a fresh serializer, the locations table (and
    the functions table) holds no duplicates; stack entry [j] of the
    [k]-th document sample is the location of frame [j] of the [k]-th
    source sample; two frames get the same location index exactly when
    their (function, line, address) triples are equal; and every
    location in the table is used by some sample. *)
Theorem serialize_dedups_locations :
  forall ef (source : Profile) self doc,
  serialize ef ProfileSerializer2_new source = Some (self, doc) ->
  NoDup (Ser.locations doc) /\ NoDup (Ser.functions doc) /\
  (forall k s sample,
     nth_error (Ser.samples doc) k = Some s ->
     nth_error (samples source) k = Some sample ->
     stack_resolves ef doc sample (Ser.stack s)) /\
  (forall f1 l1 i1 f2 l2 i2,
     resolves ef doc f1 l1 i1 -> resolves ef doc f2 l2 i2 ->
     (i1 = i2 <-> ef f1 = ef f2 /\ l1 = l2)) /\
  (forall i, (i < List.length (Ser.locations doc))%nat ->
     exists s, In s (Ser.samples doc) /\ In i (Ser.stack s)).
Proof.
  intros ef source self doc H. unfold serialize in H.
  destruct (samples_loop ef ProfileSerializer2_new (samples source))
    as [s|] eqn:E; [|discriminate].
  inversion H; subst; clear H.
  apply samples_loop_inv in E as [[T1 [T2 _]] [R C]].
  2: { split; [constructor|]. split; [constructor|].
       split; intros ? []. }
  split; [exact T1|]. split; [exact T2|]. split.
  - intros k s' sample Hk Hs. apply (C k); [exact Hk|exact Hs].
  - split.
    + split.
      * intros ->. destruct H as [fi1 [A1 B1]]. destruct H0 as [fi2 [A2 B2]].
        rewrite A1 in A2. inversion A2; subst. split; congruence.
      * intros [E1 E2]. eapply resolves_unique; eauto.
    + intros i Hi. destruct (R (fun x Hx => ltac:(cbn in Hx; lia)) i Hi)
        as [Hr|[]]. exact Hr.
Qed.

Lemma serialize_dedups_locations_witness :
  exists self doc,
    serialize describe_frame ProfileSerializer2_new repeated_frames_profile
      = Some (self, doc) /\
    NoDup (Ser.locations doc) /\ List.length (Ser.locations doc) = 3%nat /\
    map Ser.stack (Ser.samples doc) = [[0; 1; 0]; [0; 2]]%nat.
Proof.
  destruct (serialize describe_frame ProfileSerializer2_new
              repeated_frames_profile) as [[self doc]|] eqn:E.
  - exists self, doc. split; [reflexivity|].
    destruct (serialize_dedups_locations _ _ _ _ E) as [H1 _].
    split; [exact H1|]. vm_compute in E. inversion E; subst.
    split; reflexivity.
  - vm_compute in E. discriminate.
Defined.

(** C7: every operation on the profiles only appends: [serialize] only
    appends to the document's samples, locations and functions, the
    flush only appends to the durable samples, and the signal handler
    leaves them untouched.  An entry at an assigned index therefore keeps
    its value ([extends_nth]). *)
Theorem profile_tables_append_only :
  (forall ef self (source : Profile) self' doc,
     serialize ef self source = Some (self', doc) ->
     extends (Ser.samples (profile self)) (Ser.samples doc) /\
     extends (Ser.locations (profile self)) (Ser.locations doc) /\
     extends (Ser.functions (profile self)) (Ser.functions doc)) /\
  (forall p, extends (samples p) (samples (flush_temporary_sample_buffer p))) /\
  (forall cap c sample c',
     signal_handler cap c sample = Ok c' -> samples (data c') = samples (data c)).
Proof.
  split; [|split].
  - intros ef self source self' doc H. unfold serialize in H.
    destruct (samples_loop ef self (samples source)) as [s|] eqn:E;
      [|discriminate].
    inversion H; subst; clear H.
    apply samples_loop_extends in E as [E1 [E2 E3]]. auto.
  - intros p. apply extends_app.
  - intros cap c sample c' H. unfold signal_handler in H.
    destruct (try_write (lock c)).
    + destruct (push cap _ sample); inversion H; subst. reflexivity.
    + inversion H; subst. reflexivity.
Qed.

Lemma profile_tables_append_only_witness :
  (exists self doc,
     serialize describe_frame ProfileSerializer2_new repeated_frames_profile
       = Some (self, doc) /\
     extends (Ser.locations (profile ProfileSerializer2_new))
             (Ser.locations doc)) /\
  (exists c',
     signal_handler 8 {| lock := Unlocked; data := one_sample_profile |}
       (sample_at 300 7 3 42) = Ok c' /\
     samples (data c') = samples one_sample_profile).
Proof.
  split.
  - destruct (serialize describe_frame ProfileSerializer2_new
                repeated_frames_profile) as [[self doc]|] eqn:E.
    + exists self, doc. split; [reflexivity|].
      apply (proj1 profile_tables_append_only _ _ _ _ _ E).
    + vm_compute in E. discriminate.
  - destruct (signal_handler 8 {| lock := Unlocked; data := one_sample_profile |}
                (sample_at 300 7 3 42)) as [c'|m] eqn:E.
    + exists c'. split; [reflexivity|].
      apply (proj2 (proj2 profile_tables_append_only) _ _ _ _ E).
    + vm_compute in E. discriminate.
Defined.

(** C9: every location index in a sample's stack is in bounds of the
    locations table and every location's function index is in bounds of
    the functions table: this holds for a fresh serializer and is kept by
    every [serialize] call, so it holds for every document returned. *)
Theorem serialize_refs_in_bounds :
  tables_ok (profile ProfileSerializer2_new) /\
  (forall ef self (source : Profile) self' doc,
     tables_ok (profile self) ->
     serialize ef self source = Some (self', doc) ->
     tables_ok (profile self') /\ refs_in_bounds doc).
Proof.
  split.
  - split; [constructor|]. split; [constructor|]. split; intros ? [].
  - intros ef self source self' doc Hok H. unfold serialize in H.
    destruct (samples_loop ef self (samples source)) as [s|] eqn:E;
      [|discriminate].
    inversion H; subst; clear H.
    apply samples_loop_inv in E as [T _]; [|exact Hok].
    split; [exact T|]. apply T.
Qed.

Lemma serialize_refs_in_bounds_witness :
  exists self doc,
    serialize describe_frame ProfileSerializer2_new repeated_frames_profile
      = Some (self, doc) /\ refs_in_bounds doc.
Proof.
  destruct (serialize describe_frame ProfileSerializer2_new
              repeated_frames_profile) as [[self doc]|] eqn:E.
  - exists self, doc. split; [reflexivity|].
    apply (proj2 serialize_refs_in_bounds _ _ _ _ _
             (proj1 serialize_refs_in_bounds) E).
  - vm_compute in E. discriminate.
Defined.

(** ** Further properties of the serializer *)

Section SerializerMore.

Variable ef : VALUE -> Ser.Function.


Lemma stack_loop_length : forall sample k i stack self self' stack',
  stack_loop ef self sample i k stack = Some (self', stack') ->
  List.length stack' = (List.length stack + k)%nat.
Proof.
  intros sample k. induction k as [|k IH];
    intros i stack self self' stack' H; cbn in H.
  - inversion H; subst. lia.
  - destruct (nth_error (frames sample) i) as [frame|]; [|discriminate].
    destruct (nth_error (linenos sample) i) as [lineno|]; [|discriminate].
    destruct (process_ruby_frame ef self frame lineno) as [s idx].
    apply IH in H. rewrite length_app in H. cbn in H. lia.
Qed.


Lemma samples_loop_shape : forall ss self self',
  samples_loop ef self ss = Some self' ->
  exists added,
    Ser.samples (profile self') = Ser.samples (profile self) ++ added /\
    Forall2 (fun a s => List.length (Ser.stack a) = Z.to_nat (line_count s) /\
                        Ser.ruby_thread_id a = Some (ruby_thread s)) added ss.
Proof.
  induction ss as [|sample ss IH]; intros self self' H; cbn in H.
  - inversion H; subst. exists []. rewrite app_nil_r. auto.
  - destruct (stack_loop ef self sample 0 _ []) as [[s stack]|] eqn:Hs;
      [|discriminate].
    pose proof (stack_loop_header _ _ _ _ _ _ _ _ Hs) as [_ [_ E3]].
    apply stack_loop_length in Hs. cbn in Hs.
    apply IH in H as [added [Ha Hf]]. cbn in Ha.
    rewrite E3, <- app_assoc in Ha.
    eexists. split; [exact Ha|]. constructor; [|exact Hf].
    cbn. auto.
Qed.

Lemma samples_loop_app : forall s1 s2 self,
  samples_loop ef self (s1 ++ s2) =
    match samples_loop ef self s1 with
    | Some self' => samples_loop ef self' s2
    | None => None
    end.
Proof.
  induction s1 as [|sample s1 IH]; intros s2 self; cbn; [reflexivity|].
  destruct (stack_loop ef self sample 0 _ []) as [[s stack]|];
    [apply IH|reflexivity].
Qed.

End SerializerMore.

Lemma position_app_absent {A} d (v : A) l w :
  position d v l = None ->
  position d v (l ++ w) = option_map (Nat.add (List.length l)) (position d v w).
Proof.
  induction l as [|x l IH]; intros H; cbn in *.
  - destruct (position d v w); reflexivity.
  - destruct (d x v); [discriminate|].
    destruct (position d v l); cbn in H; [discriminate|].
    rewrite IH by reflexivity. destruct (position d v w); reflexivity.
Qed.

Lemma find_or_push_again {A} d (v : A) l l' i :
  find_or_push d v l = (l', i) -> find_or_push d v l' = (l', i).
Proof.
  unfold find_or_push. destruct (position d v l) eqn:E; intros H;
    inversion H; subst.
  - rewrite E. reflexivity.
  - rewrite (position_app_absent d v l [v] E). cbn.
    destruct (d v v) as [_|n]; [|contradiction n; reflexivity]. cbn.
    rewrite length_app. cbn. f_equal. lia.
Qed.

Section SerializerFunctions.

Variable ef : VALUE -> Ser.Function.

Lemma process_ruby_frame_functions_referenced :
  forall self frame lineno self' idx,
  process_ruby_frame ef self frame lineno = (self', idx) ->
  tables_ok (profile self) ->
  functions_referenced (profile self) -> functions_referenced (profile self').
Proof.
  intros self frame lineno self' idx H [Hl [Hf _]] Href.
  rewrite process_ruby_frame_eq in H. cbn in H.
  destruct (find_or_push _ (ef frame) _) as [fns fi] eqn:Ef.
  destruct (find_or_push _ _ (Ser.locations (profile self))) as [locs li]
    eqn:El.
  inversion H; subst; clear H. cbn.
  pose proof (find_or_push_extends _ _ _ _ _ El) as Xl.
  apply find_or_push_spec in Ef as [_ [_ [_ Ef4]]]; [|exact Hf].
  apply find_or_push_spec in El as [_ [El2 _]]; [|exact Hl].
  intros fi' Hfi'. destruct (Ef4 fi' Hfi') as [Hold| ->].
  - destruct (Href fi' Hold) as [l [Hin Hfl]].
    exists l. split; [eapply extends_In; eauto|exact Hfl].
  - eexists. split; [eapply nth_error_In; exact El2|reflexivity].
Qed.

Lemma stack_loop_functions_referenced :
  forall sample k i stack self self' stack',
  stack_loop ef self sample i k stack = Some (self', stack') ->
  tables_ok (profile self) ->
  functions_referenced (profile self) -> functions_referenced (profile self').
Proof.
  intros sample k. induction k as [|k IH];
    intros i stack self self' stack' H Hok Href; cbn in H.
  - inversion H; subst. exact Href.
  - destruct (nth_error (frames sample) i) as [frame|]; [|discriminate].
    destruct (nth_error (linenos sample) i) as [lineno|]; [|discriminate].
    destruct (process_ruby_frame ef self frame lineno) as [s idx] eqn:Hp.
    pose proof (process_ruby_frame_functions_referenced _ _ _ _ _ Hp Hok Href)
      as Href'.
    apply process_ruby_frame_inv in Hp as [Hok' _]; [|exact Hok].
    eapply IH; eauto.
Qed.

Lemma samples_loop_functions_referenced : forall ss self self',
  samples_loop ef self ss = Some self' ->
  tables_ok (profile self) ->
  functions_referenced (profile self) -> functions_referenced (profile self').
Proof.
  induction ss as [|sample ss IH]; intros self self' H Hok Href; cbn in H.
  - inversion H; subst. exact Href.
  - destruct (stack_loop ef self sample 0 _ []) as [[s stack]|] eqn:Hs;
      [|discriminate].
    pose proof (stack_loop_functions_referenced _ _ _ _ _ _ _ Hs Hok Href)
      as Href'.
    apply stack_loop_inv in Hs as [[T1 [T2 [T3 T4]]] [S2 _]];
      [|exact Hok|reflexivity|intros x []|intros j idx Hj; destruct j; discriminate].
    eapply IH; [exact H| |exact Href'].
    split; [exact T1|]. split; [exact T2|]. split; [|exact T4].
    intros s0 Hs0 i Hi. cbn in Hs0.
    apply in_app_or in Hs0 as [Hs0|[<-|[]]].
    + eapply T3; eauto.
    + apply S2. exact Hi.
Qed.

End SerializerFunctions.

(** ** Further properties of the code *)



(** X2: a successful [serialize] appends one document sample per source
    sample, in order; each has [line_count] stack entries (none when it
    is zero or negative) and the source sample's thread. *)
Theorem serialize_sample_shapes :
  forall ef self (source : Profile) self' doc,
  serialize ef self source = Some (self', doc) ->
  exists added,
    Ser.samples doc = Ser.samples (profile self) ++ added /\
    Forall2 (fun a s => List.length (Ser.stack a) = Z.to_nat (line_count s) /\
                        Ser.ruby_thread_id a = Some (ruby_thread s))
            added (samples source).
Proof.
  intros ef self source self' doc H. unfold serialize in H.
  destruct (samples_loop ef self (samples source)) as [s|] eqn:E;
    [|discriminate].
  inversion H; subst. eapply samples_loop_shape. exact E.
Qed.

Lemma serialize_sample_shapes_witness :
  exists self doc,
    serialize describe_frame ProfileSerializer2_new repeated_frames_profile
      = Some (self, doc) /\
    exists added, Ser.samples doc = [] ++ added /\
      Forall2 (fun a s => List.length (Ser.stack a) = Z.to_nat (line_count s) /\
                          Ser.ruby_thread_id a = Some (ruby_thread s))
              added (samples repeated_frames_profile).
Proof.
  destruct (serialize describe_frame ProfileSerializer2_new
              repeated_frames_profile) as [[self doc]|] eqn:E.
  - exists self, doc. split; [reflexivity|].
    exact (serialize_sample_shapes _ _ _ _ _ E).
  - vm_compute in E. discriminate.
Defined.

(** X3: serializing a profile whose samples are those of [source1]
    followed by those of [source2] is serializing [source1] and then,
    with the serializer it leaves, [source2]; nothing but the sample
    list of the source is read. *)
Theorem serialize_concat :
  forall ef self (source source1 source2 : Profile),
  samples source = samples source1 ++ samples source2 ->
  serialize ef self source =
    match serialize ef self source1 with
    | Some (self', _) => serialize ef self' source2
    | None => None
    end.
Proof.
  intros ef self source source1 source2 H. unfold serialize.
  rewrite H, samples_loop_app.
  destruct (samples_loop ef self (samples source1)); reflexivity.
Qed.

Lemma serialize_concat_witness :
  serialize describe_frame ProfileSerializer2_new repeated_frames_profile =
    match serialize describe_frame ProfileSerializer2_new
            {| start_timestamp := 5;
               samples := firstn 1 (samples repeated_frames_profile);
               temporary_sample_buffer := [] |} with
    | Some (self', _) =>
        serialize describe_frame self'
          {| start_timestamp := 9;
             samples := skipn 1 (samples repeated_frames_profile);
             temporary_sample_buffer := [] |}
    | None => None
    end.
Proof. apply serialize_concat. reflexivity. Defined.

(** X4: processing a frame a second time, with the same line, returns
    the same location index and leaves the serializer unchanged. *)
Theorem process_ruby_frame_repeat :
  forall ef self frame lineno self' idx,
  process_ruby_frame ef self frame lineno = (self', idx) ->
  process_ruby_frame ef self' frame lineno = (self', idx).
Proof.
  intros ef self frame lineno self' idx H.
  rewrite process_ruby_frame_eq in H. cbn in H.
  destruct (find_or_push _ (ef frame) _) as [fns fi] eqn:Ef.
  destruct (find_or_push _ _ (Ser.locations (profile self))) as [locs li]
    eqn:El.
  inversion H; subst; clear H.
  rewrite process_ruby_frame_eq. cbn.
  rewrite (find_or_push_again _ _ _ _ _ Ef).
  rewrite (find_or_push_again _ _ _ _ _ El). reflexivity.
Qed.

Lemma process_ruby_frame_repeat_witness :
  process_ruby_frame describe_frame
    (fst (process_ruby_frame describe_frame ProfileSerializer2_new 7 3)) 7 3 =
  process_ruby_frame describe_frame ProfileSerializer2_new 7 3.
Proof.
  destruct (process_ruby_frame describe_frame ProfileSerializer2_new 7 3)
    as [s idx] eqn:E.
  exact (process_ruby_frame_repeat _ _ _ _ _ _ E).
Defined.

(** X5: in a document from a fresh serializer, every entry of the
    functions table is used by some location: no function is stored
    without a location pointing at it. *)
Theorem serialize_functions_referenced :
  forall ef (source : Profile) self doc,
  serialize ef ProfileSerializer2_new source = Some (self, doc) ->
  forall fi, (fi < List.length (Ser.functions doc))%nat ->
    exists l, In l (Ser.locations doc) /\ Ser.function_index l = fi.
Proof.
  intros ef source self doc H. unfold serialize in H.
  destruct (samples_loop ef ProfileSerializer2_new (samples source))
    as [s|] eqn:E; [|discriminate].
  inversion H; subst; clear H.
  eapply samples_loop_functions_referenced; [exact E| |].
  - split; [constructor|]. split; [constructor|]. split; intros ? [].
  - intros fi Hfi. cbn in Hfi. lia.
Qed.

Lemma serialize_functions_referenced_witness :
  exists self doc,
    serialize describe_frame ProfileSerializer2_new repeated_frames_profile
      = Some (self, doc) /\
    exists l, In l (Ser.locations doc) /\ Ser.function_index l = 1%nat.
Proof.
  destruct (serialize describe_frame ProfileSerializer2_new
              repeated_frames_profile) as [[self doc]|] eqn:E.
  - exists self, doc. split; [reflexivity|].
    apply (serialize_functions_referenced _ _ _ _ E).
    vm_compute in E. inversion E; subst. cbn. lia.
  - vm_compute in E. discriminate.
Defined.

Lemma update_nth_twice {A} : forall (l : list A) n x y,
  update_nth n x (update_nth n y l) = update_nth n x l.
Proof.
  induction l as [|a l IH]; intros [|n] x y; cbn; try reflexivity.
  f_equal. apply IH.
Qed.

Lemma flush_temporary_sample_buffer_idem : forall p,
  flush_temporary_sample_buffer (flush_temporary_sample_buffer p) =
  flush_temporary_sample_buffer p.
Proof.
  intros p. unfold flush_temporary_sample_buffer. cbn.
  rewrite app_nil_r. reflexivity.
Qed.



(** X7: no sample captured before [stop] is lost: a document [stop]
    returns is rendered from the scheduler's own profile, whose samples
    start with the durable samples followed by the staged ones as they
    were when [stop] took the write lock, whose start timestamp is kept,
    which holds at least one sample and which is the one left in the
    shared cell.  When no other thread touches that profile between the
    two lock sections, it is exactly the flushed profile. *)
Theorem stop_returns_flushed_profile :
  forall cap others w w' p,
  stop cap others w = Ok (w', RString p) ->
  exists id c,
    scheduler_profile w = Some id /\
    nth_error (heap w) id = Some c /\
    lock c = Unlocked /\
    extends (samples (data c) ++ temporary_sample_buffer (data c))
            (samples p) /\
    start_timestamp p = start_timestamp (data c) /\
    samples p <> [] /\
    (exists c', nth_error (heap w') id = Some c' /\ data c' = p) /\
    (Forall (fun e => event_profile e <> id) others ->
       p = flush_temporary_sample_buffer (data c)).
Proof.
  intros cap others w w' p H. unfold stop in H.
  destruct (scheduler_profile w) as [id|] eqn:Hs; [|discriminate].
  destruct (nth_error (heap w) id) as [c|] eqn:Hh; [|discriminate].
  destruct (lock c) eqn:Hl; cbn [try_write] in H; try discriminate.
  set (w1 := set_heap w _) in H.
  assert (Hc1 : nth_error (heap w1) id =
                Some {| lock := Unlocked;
                        data := flush_temporary_sample_buffer (data c) |})
    by (eapply nth_error_update_nth_same; exact Hh).
  destruct (run_others cap others w1) as [w2|m] eqn:E; [|discriminate].
  destruct (nth_error (heap w2) id) as [c2|] eqn:Hc2; [|discriminate].
  destruct (try_read (lock c2)); [|discriminate].
  destruct (last_opt (samples (data c2))) as [x|] eqn:Hlast;
    [|discriminate].
  inversion H; subst; clear H.
  assert (HQ : exists c3, nth_error (heap w') id = Some c3 /\
            extends (samples (data c) ++ temporary_sample_buffer (data c))
                    (samples (data c3)) /\
            start_timestamp (data c3) = start_timestamp (data c)).
  { eapply (run_others_cell
              (fun c1 => extends (samples (data c) ++
                                  temporary_sample_buffer (data c))
                                 (samples (data c1)) /\
                         start_timestamp (data c1) = start_timestamp (data c))
              cap others id);
      [| exact E | exact Hc1 | split; [apply extends_refl|reflexivity]].
    intros e v1 v2 c1 Hin Es Hv1 [P1 P2].
    destruct (other_step_cell _ _ _ _ id c1 Es Hv1) as [c4 [Hc4 Hcase]].
    exists c4. split; [exact Hc4|].
    destruct Hcase as [->|[[-> ->]|[[-> Hd]|[th [s [-> Hsh]]]]]].
    - auto.
    - cbn. split; [|exact P2].
      eapply extends_trans; [exact P1|apply extends_app].
    - rewrite Hd. auto.
    - apply signal_handler_data in Hsh as [D1 D2]. rewrite D1, D2. auto. }
  destruct HQ as [c3 [Hc3 [Q1 Q2]]].
  rewrite Hc2 in Hc3. inversion Hc3; subst c3; clear Hc3.
  exists id, c. repeat split; try assumption.
  - eapply last_opt_nil. exact Hlast.
  - exists c2. auto.
  - intros Hf. rewrite (run_others_untouched _ _ _ _ _ _ Hf E Hc1) in Hc2.
    inversion Hc2. reflexivity.
Qed.

Lemma stop_returns_flushed_profile_witness :
  exists w1 w2 w3 p,
    start timer_create_always World_init [42] 0 = Ok (w1, Qtrue) /\
    timer_fires 8 w1 (0%nat, 42) (sample_at 10 7 3 42) = Ok w2 /\
    stop 8 [] w2 = Ok (w3, RString p) /\
    temporary_sample_buffer p = [].
Proof.
  pose (w2 := {| scheduler_profile := Some 0%nat;
                 heap := [{| lock := Unlocked;
                             data := {| start_timestamp := 0; samples := [];
                                        temporary_sample_buffer :=
                                          [sample_at 10 7 3 42] |} |}];
                 flushers := [0%nat]; timers := [(0%nat, 42)] |}).
  destruct (stop 8 [] w2) as [[w3 v]|m] eqn:E3;
    [|vm_compute in E3; discriminate].
  destruct v as [| |p]; try (vm_compute in E3; discriminate).
  do 4 eexists. split; [reflexivity|].
  split; [vm_compute; reflexivity|]. split; [exact E3|].
  destruct (stop_returns_flushed_profile _ _ _ _ _ E3)
    as [id [c [_ [_ [_ [_ [_ [_ [_ Hp]]]]]]]]].
  rewrite (Hp (Forall_nil _)). reflexivity.
Defined.

(** X8: [stop] never moves the scheduler to a stopped state: when no
    other thread touches the profiles meanwhile, calling it again right
    after it returned gives the same result and the same state (the same
    document, or [false] again). *)
Theorem stop_repeat :
  forall cap w w' v, stop cap [] w = Ok (w', v) -> stop cap [] w' = Ok (w', v).
Proof.
  intros cap w w' v H. unfold stop in H.
  destruct (scheduler_profile w) as [id|] eqn:Hs; [|discriminate].
  destruct (nth_error (heap w) id) as [c|] eqn:Hh; [|discriminate].
  destruct (lock c) eqn:Hl; cbn [try_write run_others] in H.
  - cbn [set_heap heap] in H.
    rewrite (nth_error_update_nth_same _ _ _ _ Hh) in H.
    cbn [lock data try_read] in H.
    destruct (last_opt _) as [x|] eqn:Hlast; [|discriminate].
    inversion H; subst; clear H.
    unfold stop. cbn [scheduler_profile set_heap heap]. rewrite Hs.
    rewrite (nth_error_update_nth_same _ _ _ _ Hh).
    cbn [lock data try_write try_read run_others set_heap heap
         scheduler_profile flushers timers].
    rewrite flush_temporary_sample_buffer_idem, update_nth_twice.
    rewrite (nth_error_update_nth_same _ _ _ _ Hh).
    cbn [lock data try_read]. rewrite Hlast. reflexivity.
  - inversion H; subst. unfold stop. rewrite Hs, Hh, Hl. reflexivity.
  - inversion H; subst. unfold stop. rewrite Hs, Hh, Hl. reflexivity.
Qed.

Lemma stop_repeat_witness :
  exists w1 w2 w3 v,
    start timer_create_always World_init [42] 0 = Ok (w1, Qtrue) /\
    timer_fires 8 w1 (0%nat, 42) (sample_at 10 7 3 42) = Ok w2 /\
    stop 8 [] w2 = Ok (w3, v) /\
    stop 8 [] w3 = Ok (w3, v).
Proof.
  pose (w2 := {| scheduler_profile := Some 0%nat;
                 heap := [{| lock := Unlocked;
                             data := {| start_timestamp := 0; samples := [];
                                        temporary_sample_buffer :=
                                          [sample_at 10 7 3 42] |} |}];
                 flushers := [0%nat]; timers := [(0%nat, 42)] |}).
  destruct (stop 8 [] w2) as [[w3 v]|m] eqn:E3;
    [|vm_compute in E3; discriminate].
  do 4 eexists. split; [reflexivity|].
  split; [vm_compute; reflexivity|]. split; [exact E3|].
  exact (stop_repeat _ _ _ _ E3).
Defined.



(** X10: nothing in the locations table of a document from a fresh
    serializer is invented: each location has no address and is the
    (function, line) of some frame of some source sample, its function
    being the description of that frame. *)
Theorem serialize_locations_from_frames :
  forall ef (source : Profile) self doc,
  serialize ef ProfileSerializer2_new source = Some (self, doc) ->
  forall l, In l (Ser.locations doc) ->
    Ser.address l = None /\
    exists k sample j frame,
      nth_error (samples source) k = Some sample /\
      nth_error (frames sample) j = Some frame /\
      nth_error (linenos sample) j = Some (Ser.lineno l) /\
      nth_error (Ser.functions doc) (Ser.function_index l) = Some (ef frame).
Proof.
  intros ef source self doc H l Hl. unfold serialize in H.
  destruct (samples_loop ef ProfileSerializer2_new (samples source))
    as [s|] eqn:E; [|discriminate].
  injection H as <- <-.
  pose proof (samples_loop_samples _ _ _ _ E) as [added [Ha Hlen]].
  cbn in Ha. subst added.
  apply samples_loop_inv in E as [_ [R C]].
  2: { split; [constructor|]. split; [constructor|].
       split; intros ? []. }
  apply In_nth_error in Hl as [i Hi].
  assert (Hlt : (i < List.length (Ser.locations (profile s)))%nat)
    by (apply nth_error_Some; congruence).
  destruct (R (fun x Hx => ltac:(cbn in Hx; lia)) i Hlt)
    as [[s0 [Hs0 Hin]]|[]].
  apply In_nth_error in Hs0 as [k Hk].
  assert (Hks : (k < List.length (samples source))%nat).
  { rewrite <- Hlen. apply nth_error_Some. congruence. }
  destruct (nth_error (samples source) k) as [sample|] eqn:Hsk;
    [|apply nth_error_None in Hsk; lia].
  apply In_nth_error in Hin as [j Hj].
  destruct (C k s0 sample Hk Hsk j i Hj)
    as [frame [lineno [Hf [Hln [fi [Hloc Hfun]]]]]].
  rewrite Hi in Hloc. inversion Hloc; subst l. cbn.
  split; [reflexivity|].
  exists k, sample, j, frame. auto.
Qed.

Lemma serialize_locations_from_frames_witness :
  exists self doc,
    serialize describe_frame ProfileSerializer2_new repeated_frames_profile
      = Some (self, doc) /\
    Ser.address {| Ser.function_index := 1; Ser.lineno := 5;
                   Ser.address := None |} = None.
Proof.
  destruct (serialize describe_frame ProfileSerializer2_new
              repeated_frames_profile) as [[self doc]|] eqn:E.
  - exists self, doc. split; [reflexivity|].
    refine (proj1 (serialize_locations_from_frames _ _ _ _ E _ _)).
    vm_compute in E. inversion E; subst. cbn. auto.
  - vm_compute in E. discriminate.
Defined.
